(** * CShader: the dirty-flag shader compilation cache

    A shallow embedding of [CShader] (CShader.h / CShader.cpp) and of the
    exception types it raises (HResultException.cpp), followed by the
    properties of the configuration surface and of [Compile]. *)

From Stdlib Require Import ZArith NArith Lia.
From stdpp Require Import base list strings.

(** ** Win32 / Direct3D boundary types *)

(** [HRESULT] is a signed 32-bit status; [FAILED(hr)] is [hr < 0]. *)
Definition HRESULT := Z.

Definition S_OK : HRESULT := 0%Z.
Definition S_FALSE : HRESULT := 1%Z.
Definition E_FAIL : HRESULT := (-2147467259)%Z. (* 0x80004005 *)

Definition FAILED (hr : HRESULT) : bool := (hr <? 0)%Z.
Definition SUCCEEDED (hr : HRESULT) : bool := (0 <=? hr)%Z.

(** [UINT] values are stored and forwarded, never computed with. *)
Definition UINT := N.

(** A COM blob: the identity of the instance and the text of its buffer
    (the buffer is read as a NUL-terminated string). *)
Record ID3DBlob := {
  blob_id : N;
  GetBufferPointer : string
}.

(** [Microsoft::WRL::ComPtr<T>]: either null or holding an interface. *)
Definition ComPtr (T : Type) := option T.

(** [ID3DInclude*] is a raw address; [nullptr] is 0 and d3dcompiler.h
    defines [D3D_COMPILE_STANDARD_FILE_INCLUDE] as the address 1. *)
Definition ID3DInclude_ptr := N.
Definition nullptr : ID3DInclude_ptr := 0%N.
Definition D3D_COMPILE_STANDARD_FILE_INCLUDE : ID3DInclude_ptr := 1%N.

(** [D3D_SHADER_MACRO]: two [LPCSTR]; [None] is [NULL], [Some s] is a
    pointer to the characters [s] as they were when it was taken. *)
Record D3D_SHADER_MACRO := {
  Name : option string;
  Definition_ : option string
}.

Definition NULL_MACRO : D3D_SHADER_MACRO :=
  {| Name := None; Definition_ := None |}.

Definition is_real_entry (m : D3D_SHADER_MACRO) : bool :=
  match Name m with Some _ => true | None => false end.

Record IErrorInfo := { error_info_id : N }.

(** The arguments of one [D3DCompile] call ([pDefines = None] is a null
    macro pointer). *)
Record D3DCompileArgs := {
  pSrcData : string;
  SrcDataSize : nat;
  pSourceName : string;
  pDefines : option (list D3D_SHADER_MACRO);
  pInclude : ID3DInclude_ptr;
  pEntrypoint : string;
  pTarget : string;
  Flags1 : UINT;
  Flags2 : UINT
}.

(** What one [D3DCompile] call hands back: the status and the contents of
    the two out-parameters after the call. *)
Record D3DCompileOut := {
  d3d_hr : HRESULT;
  ppCode : ComPtr ID3DBlob;
  ppErrorMsgs : ComPtr ID3DBlob
}.

(** The external collaborators of the component: the shader compiler and
    the thread's COM error object.  Both may depend on and change the
    outside world. *)
Class Platform (World : Type) := {
  D3DCompile : D3DCompileArgs -> World -> D3DCompileOut * World;
  GetErrorInfo : World -> (HRESULT * ComPtr IErrorInfo) * World
}.

(** The world together with the log of compiler invocations made so far. *)
Record Env (World : Type) := mkEnv {
  world : World;
  d3d_calls : list D3DCompileArgs
}.
Arguments mkEnv {World} _ _.
Arguments world {World} _.
Arguments d3d_calls {World} _.

(** ** Exceptions *)

(** [CHResultException]: the [std::runtime_error] message, and the two
    members its constructor fills in. *)
Record CHResultException := {
  runtime_error_what : string;
  m_hr : HRESULT;
  m_p_error : ComPtr IErrorInfo
}.

Record CDXShaderException := {
  base : CHResultException;
  m_error : string
}.

Inductive Outcome (A : Type) :=
| Returned (a : A)
| Thrown (ex : CDXShaderException).
Arguments Returned {A} _.
Arguments Thrown {A} _.

(** ** The shader unit *)

(** [ShaderMacro::m_name] is written [m_name_]: the plain name is the
    member of [CShader]. *)
Record ShaderMacro := {
  m_name_ : string;
  m_definition : string
}.

Record CShader := mkCShader {
  m_code : string;
  m_entry_point : string;
  m_name : string;
  m_target : string;
  m_macros : list ShaderMacro;
  m_shader_macros : list D3D_SHADER_MACRO;
  m_p_include : ID3DInclude_ptr;
  m_flags1 : UINT;
  m_flags2 : UINT;
  m_is_macro_changed : bool;
  m_is_config_changed : bool;
  m_p_cached_byte_code : ComPtr ID3DBlob
}.

(** The default member initialisers; [m_shader_macros{0}] selects
    [vector(size_type)] and gives an empty vector. *)
Definition CShader_default : CShader :=
  {| m_code := EmptyString; m_entry_point := EmptyString;
     m_name := EmptyString; m_target := EmptyString;
     m_macros := []; m_shader_macros := []; m_p_include := nullptr;
     m_flags1 := 0%N; m_flags2 := 0%N;
     m_is_macro_changed := true; m_is_config_changed := true;
     m_p_cached_byte_code := None |}.

(** Single-member assignments. *)
Definition set_code (x : string) (s : CShader) : CShader :=
  mkCShader x (m_entry_point s) (m_name s) (m_target s) (m_macros s)
    (m_shader_macros s) (m_p_include s) (m_flags1 s) (m_flags2 s)
    (m_is_macro_changed s) (m_is_config_changed s) (m_p_cached_byte_code s).
Definition set_entry_point (x : string) (s : CShader) : CShader :=
  mkCShader (m_code s) x (m_name s) (m_target s) (m_macros s)
    (m_shader_macros s) (m_p_include s) (m_flags1 s) (m_flags2 s)
    (m_is_macro_changed s) (m_is_config_changed s) (m_p_cached_byte_code s).
Definition set_name (x : string) (s : CShader) : CShader :=
  mkCShader (m_code s) (m_entry_point s) x (m_target s) (m_macros s)
    (m_shader_macros s) (m_p_include s) (m_flags1 s) (m_flags2 s)
    (m_is_macro_changed s) (m_is_config_changed s) (m_p_cached_byte_code s).
Definition set_target (x : string) (s : CShader) : CShader :=
  mkCShader (m_code s) (m_entry_point s) (m_name s) x (m_macros s)
    (m_shader_macros s) (m_p_include s) (m_flags1 s) (m_flags2 s)
    (m_is_macro_changed s) (m_is_config_changed s) (m_p_cached_byte_code s).
Definition set_macros (x : list ShaderMacro) (s : CShader) : CShader :=
  mkCShader (m_code s) (m_entry_point s) (m_name s) (m_target s) x
    (m_shader_macros s) (m_p_include s) (m_flags1 s) (m_flags2 s)
    (m_is_macro_changed s) (m_is_config_changed s) (m_p_cached_byte_code s).
Definition set_shader_macros (x : list D3D_SHADER_MACRO) (s : CShader)
  : CShader :=
  mkCShader (m_code s) (m_entry_point s) (m_name s) (m_target s) (m_macros s)
    x (m_p_include s) (m_flags1 s) (m_flags2 s)
    (m_is_macro_changed s) (m_is_config_changed s) (m_p_cached_byte_code s).
Definition set_p_include (x : ID3DInclude_ptr) (s : CShader) : CShader :=
  mkCShader (m_code s) (m_entry_point s) (m_name s) (m_target s) (m_macros s)
    (m_shader_macros s) x (m_flags1 s) (m_flags2 s)
    (m_is_macro_changed s) (m_is_config_changed s) (m_p_cached_byte_code s).
Definition set_flags1 (x : UINT) (s : CShader) : CShader :=
  mkCShader (m_code s) (m_entry_point s) (m_name s) (m_target s) (m_macros s)
    (m_shader_macros s) (m_p_include s) x (m_flags2 s)
    (m_is_macro_changed s) (m_is_config_changed s) (m_p_cached_byte_code s).
Definition set_flags2 (x : UINT) (s : CShader) : CShader :=
  mkCShader (m_code s) (m_entry_point s) (m_name s) (m_target s) (m_macros s)
    (m_shader_macros s) (m_p_include s) (m_flags1 s) x
    (m_is_macro_changed s) (m_is_config_changed s) (m_p_cached_byte_code s).
Definition set_is_macro_changed (x : bool) (s : CShader) : CShader :=
  mkCShader (m_code s) (m_entry_point s) (m_name s) (m_target s) (m_macros s)
    (m_shader_macros s) (m_p_include s) (m_flags1 s) (m_flags2 s)
    x (m_is_config_changed s) (m_p_cached_byte_code s).
Definition set_is_config_changed (x : bool) (s : CShader) : CShader :=
  mkCShader (m_code s) (m_entry_point s) (m_name s) (m_target s) (m_macros s)
    (m_shader_macros s) (m_p_include s) (m_flags1 s) (m_flags2 s)
    (m_is_macro_changed s) x (m_p_cached_byte_code s).
Definition set_p_cached_byte_code (x : ComPtr ID3DBlob) (s : CShader)
  : CShader :=
  mkCShader (m_code s) (m_entry_point s) (m_name s) (m_target s) (m_macros s)
    (m_shader_macros s) (m_p_include s) (m_flags1 s) (m_flags2 s)
    (m_is_macro_changed s) (m_is_config_changed s) x.

(** ** [std::remove_if] on a vector

    [first = find_if(first, last, p)], then every later element that does
    not satisfy [p] is move-assigned to [*first++].  The vector keeps its
    size; the iterator that is returned is the new logical end.
    [moved_from x] is the state a moved-from [x] is left in. *)
Section RemoveIf.
Context {A : Type} (moved_from : A -> A) (p : A -> bool).

Fixpoint find_if (v : list A) : nat :=
  match v with
  | [] => 0
  | x :: v' => if p x then 0 else S (find_if v')
  end.

(** [n] iterations of [for (i = first; ++i != last;)], entered with [i]
    already advanced. *)
Fixpoint remove_if_loop (n : nat) (v : list A) (first i : nat)
  : list A * nat :=
  match n with
  | 0 => (v, first)
  | S n' =>
      match v !! i with
      | None => (v, first)
      | Some x =>
          if p x then remove_if_loop n' v first (S i)
          else remove_if_loop n'
                 (<[i := moved_from x]> (<[first := x]> v)) (S first) (S i)
      end
  end.

Definition remove_if (v : list A) : list A * nat :=
  let first := find_if v in
  if (first <? length v)%nat
  then remove_if_loop (length v - S first) v first (S first)
  else (v, first).

End RemoveIf.

(** [std::remove_if] with a predicate that reads the vector it works on
    (a lambda that captured, by reference, something stored in the
    vector): [p v x] is the predicate applied to [x] while the vector
    reads [v].  [find_if] moves nothing, so it sees one vector
    throughout; the loop applies the predicate to [*i] before the
    move-assignment that follows it. *)
Section RemoveIfBy.
Context {A : Type} (moved_from : A -> A) (p : list A -> A -> bool).

Fixpoint remove_if_by_loop (n : nat) (v : list A) (first i : nat)
  : list A * nat :=
  match n with
  | 0 => (v, first)
  | S n' =>
      match v !! i with
      | None => (v, first)
      | Some x =>
          if p v x then remove_if_by_loop n' v first (S i)
          else remove_if_by_loop n'
                 (<[i := moved_from x]> (<[first := x]> v)) (S first) (S i)
      end
  end.

Definition remove_if_by (v : list A) : list A * nat :=
  let first := find_if (p v) v in
  if (first <? length v)%nat
  then remove_if_by_loop (length v - S first) v first (S first)
  else (v, first).

End RemoveIfBy.

(** A moved-from [std::string] is left empty by the move assignment, and
    [ShaderMacro] moves member by member. *)
Definition ShaderMacro_moved_from (x : ShaderMacro) : ShaderMacro :=
  {| m_name_ := EmptyString; m_definition := EmptyString |}.

(** What a [const std::string&] argument can refer to while the macro
    vector is being worked on: a string outside the vector, or a member
    of one of its elements (as in [DeleteMacro(GetMacros()[k].m_name)]).
    A string literal is a string outside the vector. *)
Inductive NameRef :=
| detached (name : string)
| macro_name_of (k : nat)
| macro_definition_of (k : nat).
Coercion detached : string >-> NameRef.
Bind Scope string_scope with NameRef.

(** The string a reference reads while the vector reads [v] (a reference
    to an element is a reference to an element that exists). *)
Definition deref (r : NameRef) (v : list ShaderMacro) : string :=
  match r with
  | detached name => name
  | macro_name_of k =>
      match v !! k with Some x => m_name_ x | None => EmptyString end
  | macro_definition_of k =>
      match v !! k with Some x => m_definition x | None => EmptyString end
  end.

(** ** Accessors and mutators (CShader.cpp, lines 59-177) *)

Definition GetCode (s : CShader) : string := m_code s.

Definition SetCode (code : string) (s : CShader) : CShader :=
  set_code code (set_is_config_changed true s).

Definition GetEntryPoint (s : CShader) : string := m_entry_point s.

Definition SetEntryPoint (entry_point : string) (s : CShader) : CShader :=
  set_entry_point entry_point (set_is_config_changed true s).

Definition GetName (s : CShader) : string := m_name s.

Definition SetName (name : string) (s : CShader) : CShader :=
  set_name name (set_is_config_changed true s).

Definition GetTarget (s : CShader) : string := m_target s.

Definition SetTarget (target : string) (s : CShader) : CShader :=
  set_target target (set_is_config_changed true s).

Definition AddMacro (macro : ShaderMacro) (s : CShader) : CShader :=
  let s := set_is_config_changed true s in
  set_macros (m_macros s ++ [macro]) s.

(** [name] is taken by reference and the lambda captures it by
    reference: every comparison reads it anew.  The iterator returned by
    [remove_if] is assigned to [std::ignore]. *)
Definition DeleteMacro (name : NameRef) (s : CShader) : CShader :=
  let s := set_is_config_changed true s in
  let r := remove_if_by ShaderMacro_moved_from
             (fun v x => String.eqb (m_name_ x) (deref name v))
             (m_macros s) in
  set_macros (fst r) s.

Definition GetMacros (s : CShader) : list ShaderMacro := m_macros s.

Definition GetFlags1 (s : CShader) : UINT := m_flags1 s.

Definition SetFlags1 (flags1 : UINT) (s : CShader) : CShader :=
  set_flags1 flags1 (set_is_config_changed true s).

Definition GetFlags2 (s : CShader) : UINT := m_flags2 s.

Definition SetFlags2 (flags2 : UINT) (s : CShader) : CShader :=
  set_flags2 flags2 (set_is_config_changed true s).

(** [GetInclude] is not [const]: it writes the flag, then returns. *)
Definition GetInclude (s : CShader) : ID3DInclude_ptr * CShader :=
  let s := set_is_config_changed true s in
  (m_p_include s, s).

Definition SetInclude (p_indclude : ID3DInclude_ptr) (s : CShader)
  : CShader :=
  set_p_include p_indclude (set_is_config_changed true s).

(** The mutators as data, to speak about sequences of calls. *)
Inductive Mutator :=
| MSetCode (code : string)
| MSetEntryPoint (entry_point : string)
| MSetName (name : string)
| MSetTarget (target : string)
| MAddMacro (macro : ShaderMacro)
| MDeleteMacro (name : NameRef)
| MSetFlags1 (flags1 : UINT)
| MSetFlags2 (flags2 : UINT)
| MSetInclude (p_include : ID3DInclude_ptr).

Definition call_mutator (m : Mutator) (s : CShader) : CShader :=
  match m with
  | MSetCode c => SetCode c s
  | MSetEntryPoint e => SetEntryPoint e s
  | MSetName n => SetName n s
  | MSetTarget t => SetTarget t s
  | MAddMacro x => AddMacro x s
  | MDeleteMacro n => DeleteMacro n s
  | MSetFlags1 f => SetFlags1 f s
  | MSetFlags2 f => SetFlags2 f s
  | MSetInclude p => SetInclude p s
  end.

Definition is_macro_mutator (m : Mutator) : bool :=
  match m with
  | MAddMacro _ | MDeleteMacro _ => true
  | _ => false
  end.

Definition call_mutators (ms : list Mutator) (s : CShader) : CShader :=
  foldl (fun s m => call_mutator m s) s ms.

(** ** Exception construction (HResultException.cpp, CShader.cpp 6-18) *)

Section Component.
Context {World : Type} `{Platform World}.

(** [CHResultException(hr, p_message)]: the message goes to
    [std::runtime_error]; the body assigns the result of
    [::GetErrorInfo(0, &m_p_error)] to [m_hr]. *)
Definition CHResultException_ctor (hr : HRESULT) (p_message : string)
  (w : World) : CHResultException * World :=
  let '((r, p_err), w') := GetErrorInfo w in
  ({| runtime_error_what := p_message; m_hr := r; m_p_error := p_err |}, w').

Definition GetHResult (ex : CHResultException) : HRESULT := m_hr ex.

Definition HasError (ex : CHResultException) : bool := SUCCEEDED (m_hr ex).

Definition CDXShaderException_ctor (hr : HRESULT) (p_error : string)
  (p_shader_error : ComPtr ID3DBlob) (w : World)
  : CDXShaderException * World :=
  let '(b, w') := CHResultException_ctor hr p_error w in
  let m_error0 := p_error in
  let m_error1 :=
    match p_shader_error with
    | Some blob => String.append m_error0 (GetBufferPointer blob)
    | None => m_error0
    end in
  ({| base := b; m_error := m_error1 |}, w').

Definition what (ex : CDXShaderException) : string := m_error ex.

(** Modelled from the spec: the template [ThrowIfFailed<T>(hr, args...)]
    is declared in HResultException.h, which is not among the sources.
    Following section 4.2 (on a failed compiler invocation the error is
    raised with the status code, the prefix and the diagnostic blob) it
    constructs and throws [T{hr, args...}] exactly when [FAILED(hr)]. *)
Definition ThrowIfFailed_CDXShaderException (hr : HRESULT)
  (p_message : string) (p_shader_error : ComPtr ID3DBlob) (w : World)
  : option CDXShaderException * World :=
  if FAILED hr
  then let '(ex, w') := CDXShaderException_ctor hr p_message p_shader_error w
       in (Some ex, w')
  else (None, w).

(** ** [CShader::Compile] (CShader.cpp, lines 20-57) *)

Definition project_macro (current : ShaderMacro) : D3D_SHADER_MACRO :=
  {| Name := Some (m_name_ current);
     Definition_ := Some (m_definition current) |}.

(** [std::transform(first, last, d_first, f)]: writes [f x] to
    consecutive slots of the destination, starting at slot [i]. *)
Fixpoint transform {A B : Type} (f : A -> B) (src : list A) (dst : list B)
  (i : nat) : list B :=
  match src with
  | [] => dst
  | x :: src' => transform f src' (<[i := f x]> dst) (S i)
  end.

(** [v.back() = y] on a non-empty vector. *)
Definition assign_back {A : Type} (y : A) (v : list A) : list A :=
  <[length v - 1 := y]> v.

(** Lines 25-31: [resize] keeps what the vector held and pads with
    value-initialised (all-null) pairs. *)
Definition rebuild_shader_macros (s : CShader) : list D3D_SHADER_MACRO :=
  let v := resize (length (m_macros s) + 1) NULL_MACRO (m_shader_macros s) in
  let v := transform project_macro (m_macros s) v 0 in
  assign_back NULL_MACRO v.

Definition macros_empty (s : CShader) : bool :=
  match m_macros s with [] => true | _ => false end.

(** The test of line 23. *)
Definition triggers_rebuild (s : CShader) : bool :=
  m_is_macro_changed s && negb (macros_empty s).

(** What the compiler reads through an array of pairs while the macro
    vector reads [macros]: the pair in slot [j] was built from element
    [j], its pointers are that element's [c_str()], and they read the
    element as it is at the time of the call. *)
Definition read_macro_array (arr : list D3D_SHADER_MACRO)
  (macros : list ShaderMacro) : list D3D_SHADER_MACRO :=
  imap (fun j entry =>
          if is_real_entry entry
          then match macros !! j with
               | Some x => project_macro x
               | None => entry
               end
          else entry) arr.

(** The argument of line 43: [NULL] for an empty macro list, otherwise
    [m_shader_macros.data()], which is null as long as the vector has
    never held anything. *)
Definition macros_argument (s : CShader)
  : option (list D3D_SHADER_MACRO) :=
  if macros_empty s then None
  else match m_shader_macros s with
       | [] => None
       | arr => Some (read_macro_array arr (m_macros s))
       end.

Definition compile_args (s : CShader) : D3DCompileArgs :=
  {| pSrcData := m_code s;
     SrcDataSize := String.length (m_code s);
     pSourceName := m_name s;
     pDefines := macros_argument s;
     pInclude := if N.eqb (m_p_include s) nullptr
                 then D3D_COMPILE_STANDARD_FILE_INCLUDE
                 else m_p_include s;
     pEntrypoint := m_entry_point s;
     pTarget := m_target s;
     Flags1 := m_flags1 s;
     Flags2 := m_flags2 s |}.

(** [Compile] is [const], its writes go to the [mutable] members; what it
    wrote before a throw stays written.  Taking [&m_p_cached_byte_code]
    releases the [ComPtr] ([ReleaseAndGetAddressOf]) before the compiler
    fills it, so after the call the member holds just what the compiler
    stored. *)
Definition Compile (s : CShader) (e : Env World)
  : Outcome (ComPtr ID3DBlob) * CShader * Env World :=
  let s :=
    if triggers_rebuild s
    then set_shader_macros (rebuild_shader_macros s) s
    else s in
  let s := set_is_macro_changed false s in
  if m_is_config_changed s then
    let args := compile_args s in
    let '(out, w) := D3DCompile args (world e) in
    let calls := d3d_calls e ++ [args] in
    let s := set_p_cached_byte_code (ppCode out) s in
    match ThrowIfFailed_CDXShaderException (d3d_hr out)
            "Compile DX shader failed." (ppErrorMsgs out) w with
    | (Some ex, w) => (Thrown ex, s, mkEnv w calls)
    | (None, w) =>
        let s := set_is_config_changed false s in
        (Returned (m_p_cached_byte_code s), s, mkEnv w calls)
    end
  else
    (Returned (m_p_cached_byte_code s), s, e).

(** The unit as the compiler call of line 39 finds it: after lines
    23-33 of [Compile]. *)
Definition after_macro_step (s : CShader) : CShader :=
  set_is_macro_changed false
    (if triggers_rebuild s
     then set_shader_macros (rebuild_shader_macros s) s else s).

(** The compiler invocations a step added to the log, and their number. *)
Definition new_calls (e e' : Env World) : list D3DCompileArgs :=
  drop (length (d3d_calls e)) (d3d_calls e').

Definition invocations (e e' : Env World) : nat :=
  length (new_calls e e').

(** ** Histories of calls on one unit *)

Inductive Call :=
| CallMutator (m : Mutator)
| CallGetInclude
| CallCompile.

(** What a call did with respect to the configuration and the compiler. *)
Inductive Event :=
| ConfigChanged      (* the call set [m_is_config_changed] *)
| CompileSucceeded   (* the compiler was invoked and succeeded *)
| CompileFailed      (* the compiler was invoked and [Compile] threw *)
| CompileCached.     (* [Compile] returned without invoking it *)

Definition run_call (c : Call) (s : CShader) (e : Env World)
  : Event * CShader * Env World :=
  match c with
  | CallMutator m => (ConfigChanged, call_mutator m s, e)
  | CallGetInclude => (ConfigChanged, snd (GetInclude s), e)
  | CallCompile =>
      let '(r, s', e') := Compile s e in
      let ev :=
        if m_is_config_changed s then
          match r with
          | Returned _ => CompileSucceeded
          | Thrown _ => CompileFailed
          end
        else CompileCached in
      (ev, s', e')
  end.

(** Runs the calls in order; the events come out most recent first. *)
Fixpoint run_calls (cs : list Call) (h : list Event) (s : CShader)
  (e : Env World) : list Event * CShader * Env World :=
  match cs with
  | [] => (h, s, e)
  | c :: cs' =>
      let '(ev, s', e') := run_call c s e in
      run_calls cs' (ev :: h) s' e'
  end.

(** "A compile has succeeded since the most recent configuration change":
    going back in time, a successful compile is met before any call that
    set the configuration flag. *)
Fixpoint succeeded_since_change (h : list Event) : bool :=
  match h with
  | [] => false
  | CompileSucceeded :: _ => true
  | ConfigChanged :: _ => false
  | (CompileFailed | CompileCached) :: h' => succeeded_since_change h'
  end.

End Component.

(** ** Stub platforms *)

(** A compiler that always succeeds with the fixed blob [B]; the world
    counts nothing and no COM error object is pending. *)
Definition blob_B : ID3DBlob := {| blob_id := 1; GetBufferPointer := "DXBC" |}.

Definition stub_ok : Platform unit := {|
  D3DCompile _ w :=
    ({| d3d_hr := S_OK; ppCode := Some blob_B; ppErrorMsgs := None |}, w);
  GetErrorInfo w := ((S_FALSE, None), w)
|}.

(** A compiler that always fails with [E_FAIL] and the diagnostic
    ["syntax error"]. *)
Definition blob_diag : ID3DBlob :=
  {| blob_id := 2; GetBufferPointer := "syntax error" |}.

Definition stub_fail : Platform unit := {|
  D3DCompile _ w :=
    ({| d3d_hr := E_FAIL; ppCode := None; ppErrorMsgs := Some blob_diag |}, w);
  GetErrorInfo w := ((S_FALSE, None), w)
|}.

Definition env0 : Env unit := mkEnv tt [].

Definition macro_A : ShaderMacro := {| m_name_ := "A"; m_definition := "1" |}.
Definition macro_B : ShaderMacro := {| m_name_ := "B"; m_definition := "2" |}.

(** The unit after one successful [Compile] of a fresh unit: clean, with
    [blob_B] cached. *)
Definition clean_unit : CShader :=
  (@Compile unit stub_ok CShader_default env0).1.2.

(** ** Views of the unit used by the properties *)

(** The configuration members (everything but the two flags, the
    projected array and the cache). *)
Definition configuration (s : CShader) :=
  (m_code s, m_entry_point s, m_name s, m_target s, m_macros s,
   m_p_include s, m_flags1 s, m_flags2 s).

Inductive Member :=
| code_member | entry_point_member | name_member | target_member
| macros_member | flags1_member | flags2_member | include_member.

(** The configuration member a mutator assigns, besides the flag. *)
Definition member_written (m : Mutator) : Member :=
  match m with
  | MSetCode _ => code_member
  | MSetEntryPoint _ => entry_point_member
  | MSetName _ => name_member
  | MSetTarget _ => target_member
  | MAddMacro _ | MDeleteMacro _ => macros_member
  | MSetFlags1 _ => flags1_member
  | MSetFlags2 _ => flags2_member
  | MSetInclude _ => include_member
  end.

Definition same_member (mem : Member) (s s' : CShader) : Prop :=
  match mem with
  | code_member => m_code s' = m_code s
  | entry_point_member => m_entry_point s' = m_entry_point s
  | name_member => m_name s' = m_name s
  | target_member => m_target s' = m_target s
  | macros_member => m_macros s' = m_macros s
  | flags1_member => m_flags1 s' = m_flags1 s
  | flags2_member => m_flags2 s' = m_flags2 s
  | include_member => m_p_include s' = m_p_include s
  end.

#[global] Instance Member_eq_dec : EqDecision Member.
Proof. solve_decision. Defined.

(** A call that does not assign the member [mem]. *)
Definition leaves_member (mem : Member) (c : Call) : bool :=
  match c with
  | CallMutator m => bool_decide (member_written m <> mem)
  | CallGetInclude | CallCompile => true
  end.

(** The predicate of [DeleteMacro]'s lambda. *)
Definition has_name (name : string) (x : ShaderMacro) : bool :=
  String.eqb (m_name_ x) name.

Definition invokes_compiler (ev : Event) : bool :=
  match ev with
  | CompileSucceeded | CompileFailed => true
  | ConfigChanged | CompileCached => false
  end.

Definition is_Compile_call (c : Call) : bool :=
  match c with CallCompile => true | _ => false end.

(** ** The callers (main.cpp, lines 120-141 and 492-513)

    [MakeStaticVariableWrapper<CShader>(ctor)] default-initialises the
    content and runs [ctor] on it; both callers pass the same chain of
    fluent setters. *)
Definition MakeStaticVariableWrapper (ctor : CShader -> CShader) : CShader :=
  ctor CShader_default.

Definition shader_setup (code entry_point name target : string)
  (flags1 : UINT) (p_content : CShader) : CShader :=
  SetFlags1 flags1
    (SetTarget target
       (SetName name (SetEntryPoint entry_point (SetCode code p_content)))).

(** ** [FunctionChecker] (HResultException.cpp, lines 3-37) *)

(** Module handles and procedure addresses; [NULL] is 0. *)
Definition HMODULE := N.
Definition FARPROC := N.

Inductive LoaderCall :=
| Called_LoadLibrary (p_library_name : string)
| Called_GetProcAddress (h_library : HMODULE) (p_function_name : string)
| Called_FreeLibrary (h_library : HMODULE).

(** The loader of the operating system. *)
Class Loader (World : Type) := {
  LoadLibrary : string -> World -> HMODULE * World;
  GetProcAddress : HMODULE -> string -> World -> FARPROC * World;
  FreeLibrary : HMODULE -> World -> World
}.

(** The world together with the log of loader calls made so far. *)
Record LoaderEnv (World : Type) := mkLoaderEnv {
  loader_world : World;
  loader_calls : list LoaderCall
}.
Arguments mkLoaderEnv {World} _ _.
Arguments loader_world {World} _.
Arguments loader_calls {World} _.

Section FunctionChecker.
Context {World : Type} `{Loader World}.

Definition StrategicCheck (p_library_name : string)
  (strategy : HMODULE -> LoaderEnv World -> bool * LoaderEnv World)
  (e : LoaderEnv World) : bool * LoaderEnv World :=
  let result := false in
  let '(hmodule, w) := LoadLibrary p_library_name (loader_world e) in
  let e := mkLoaderEnv w
             (loader_calls e ++ [Called_LoadLibrary p_library_name]) in
  if negb (N.eqb hmodule 0) then
    let '(result, e) := strategy hmodule e in
    let e := mkLoaderEnv (FreeLibrary hmodule (loader_world e))
               (loader_calls e ++ [Called_FreeLibrary hmodule]) in
    (result, e)
  else (result, e).

Definition CheckLibraryExist (p_library_name : string)
  (e : LoaderEnv World) : bool * LoaderEnv World :=
  StrategicCheck p_library_name (fun _ e => (true, e)) e.

Definition CheckFunctionExist (p_library_name p_function_name : string)
  (e : LoaderEnv World) : bool * LoaderEnv World :=
  StrategicCheck p_library_name
    (fun h_library e =>
       let '(p_test_function, w) :=
         GetProcAddress h_library p_function_name (loader_world e) in
       (negb (N.eqb p_test_function 0),
        mkLoaderEnv w
          (loader_calls e
             ++ [Called_GetProcAddress h_library p_function_name])))
    e.

(** The loader calls a step added to the log. *)
Definition new_loader_calls (e e' : LoaderEnv World) : list LoaderCall :=
  drop (length (loader_calls e)) (loader_calls e').

End FunctionChecker.

(** A loader that knows one library, ["d3d11.dll"] at handle 7, exporting
    one function, ["D3D11CreateDevice"]. *)
Definition stub_loader : Loader unit := {|
  LoadLibrary name w :=
    (if String.eqb name "d3d11.dll" then 7%N else 0%N, w);
  GetProcAddress h fn w :=
    (if (N.eqb h 7 && String.eqb fn "D3D11CreateDevice")%bool
     then 100%N else 0%N, w);
  FreeLibrary _ w := w
|}.

Definition loader_env0 : LoaderEnv unit := mkLoaderEnv tt [].

(** Opens [Compile] along every branch it can take. *)
Ltac open_Compile :=
  unfold Compile, ThrowIfFailed_CDXShaderException, CDXShaderException_ctor,
    CHResultException_ctor;
  repeat match goal with
    | |- context [if triggers_rebuild ?s then _ else _] =>
        destruct (triggers_rebuild s) eqn:?
    | |- context [D3DCompile ?a ?w] =>
        let out := fresh "out" in let w' := fresh "w" in
        destruct (D3DCompile a w) as [out w'] eqn:?
    | |- context [GetErrorInfo ?w] =>
        let r := fresh "r" in let pe := fresh "p_err" in
        let w' := fresh "w" in
        destruct (GetErrorInfo w) as [[r pe] w'] eqn:?
    | |- context [FAILED ?hr] => destruct (FAILED hr) eqn:?
    | |- context [if m_is_config_changed ?s then _ else _] =>
        destruct (m_is_config_changed s) eqn:?
    | _ => progress cbn in *
    end.

(** * Properties *)

(** ** [std::remove_if] *)

Section RemoveIfFacts.
Context {A : Type} (moved_from : A -> A) (p : A -> bool).

Abbreviation keep := (List.filter (fun x => negb (p x))).

Lemma find_if_le (v : list A) : find_if p v <= length v.
Proof. induction v as [|x v IH]; simpl; [lia|]. destruct (p x); simpl; lia. Qed.

Lemma find_if_prefix (v : list A) :
  keep (take (find_if p v) v) = take (find_if p v) v.
Proof.
  induction v as [|x v IH]; simpl; [done|].
  destruct (p x) eqn:E; simpl; [done|]. rewrite E. simpl. by rewrite IH.
Qed.

Lemma find_if_hit (v : list A) :
  find_if p v < length v ->
  exists x, v !! find_if p v = Some x /\ p x = true.
Proof.
  induction v as [|x v IH]; simpl; [lia|].
  destruct (p x) eqn:E; simpl.
  - intros _. by exists x.
  - intros Hlt. apply IH. lia.
Qed.

Lemma filter_app_bool (f : A -> bool) (l1 l2 : list A) :
  List.filter f (l1 ++ l2) = List.filter f l1 ++ List.filter f l2.
Proof. induction l1 as [|x l1 IH]; simpl; [done|]. destruct (f x); simpl; by rewrite IH. Qed.

Lemma remove_if_loop_spec (n : nat) : forall (v : list A) (first i : nat),
  first < i -> i + n = length v ->
  length (remove_if_loop moved_from p n v first i).1 = length v /\
  take (remove_if_loop moved_from p n v first i).2
       (remove_if_loop moved_from p n v first i).1
  = take first v ++ keep (drop i v).
Proof.
  induction n as [|n IH]; intros v first i Hfi Hlen; simpl.
  - split; [done|]. rewrite drop_ge by lia. simpl. by rewrite app_nil_r.
  - destruct (v !! i) as [x|] eqn:Hi.
    2:{ apply lookup_ge_None in Hi. lia. }
    rewrite (drop_S v x i Hi). simpl.
    destruct (p x) eqn:Hp; simpl.
    + apply IH; lia.
    + set (v' := <[i:=moved_from x]> (<[first:=x]> v)).
      assert (Hlen' : length v' = length v)
        by (unfold v'; by rewrite !length_insert).
      destruct (IH v' (S first) (S i)) as [IH1 IH2]; [lia|lia|].
      split; [congruence|]. rewrite IH2.
      assert (Hf : first < length v) by lia.
      assert (Htake : take (S first) v' = take first v ++ [x]).
      { unfold v'. rewrite take_insert_ge by lia.
        erewrite take_S_r by (apply list_lookup_insert_eq; lia).
        by rewrite take_insert_ge by lia. }
      assert (Hdrop : drop (S i) v' = drop (S i) v).
      { unfold v'. rewrite !drop_insert_lt by lia. done. }
      rewrite Htake, Hdrop, <- app_assoc. done.
Qed.

(** The vector keeps its length, and up to the returned iterator it holds
    the elements that do not satisfy [p], in their original order. *)
Lemma remove_if_spec (v : list A) :
  length (remove_if moved_from p v).1 = length v /\
  take (remove_if moved_from p v).2 (remove_if moved_from p v).1 = keep v.
Proof.
  unfold remove_if. pose proof (find_if_le v) as Hle.
  destruct (Nat.ltb_spec (find_if p v) (length v)) as [Hlt|Hge].
  - destruct (remove_if_loop_spec (length v - S (find_if p v)) v
                (find_if p v) (S (find_if p v))) as [H1 H2]; [lia|lia|].
    split; [done|]. rewrite H2.
    destruct (find_if_hit v Hlt) as (x & Hx & Hp).
    assert (Hsplit : keep v = keep (take (find_if p v) v ++ drop (find_if p v) v))
      by (by rewrite take_drop).
    rewrite Hsplit, filter_app_bool, find_if_prefix. f_equal.
    rewrite (drop_S v x _ Hx). simpl. by rewrite Hp.
  - simpl. split; [done|].
    assert (find_if p v = length v) as Heq by lia.
    rewrite <- find_if_prefix, Heq. by rewrite firstn_all.
Qed.

End RemoveIfFacts.

(** ** The configuration surface *)

Lemma call_mutator_config_changed (m : Mutator) (s : CShader) :
  m_is_config_changed (call_mutator m s) = true.
Proof. by destruct m. Qed.

Lemma call_mutator_macro_changed (m : Mutator) (s : CShader) :
  m_is_macro_changed (call_mutator m s) = m_is_macro_changed s.
Proof. by destruct m. Qed.

Lemma call_mutator_cached (m : Mutator) (s : CShader) :
  m_p_cached_byte_code (call_mutator m s) = m_p_cached_byte_code s.
Proof. by destruct m. Qed.

Lemma call_mutator_shader_macros (m : Mutator) (s : CShader) :
  m_shader_macros (call_mutator m s) = m_shader_macros s.
Proof. by destruct m. Qed.

Lemma call_mutators_snoc (ms : list Mutator) (m : Mutator) (s : CShader) :
  call_mutators (ms ++ [m]) s = call_mutator m (call_mutators ms s).
Proof.
  unfold call_mutators. revert s.
  induction ms as [|m' ms IH]; intros s; simpl; [done|]. apply IH.
Qed.

(** With a predicate that does not read the vector, the two forms of
    [remove_if] are one. *)
Lemma remove_if_by_loop_const {A : Type} (moved_from : A -> A)
  (p : A -> bool) (n : nat) : forall (v : list A) (first i : nat),
  remove_if_by_loop moved_from (fun _ => p) n v first i
  = remove_if_loop moved_from p n v first i.
Proof.
  induction n as [|n IH]; intros v first i; simpl; [done|].
  destruct (v !! i) as [x|]; [|done]. destruct (p x); apply IH.
Qed.

Lemma remove_if_by_const {A : Type} (moved_from : A -> A) (p : A -> bool)
  (v : list A) :
  remove_if_by moved_from (fun _ => p) v = remove_if moved_from p v.
Proof.
  unfold remove_if_by, remove_if.
  destruct (find_if p v <? length v)%nat; [|done].
  apply remove_if_by_loop_const.
Qed.

(** Whatever the predicate reads, the vector keeps its length. *)
Lemma remove_if_by_loop_length {A : Type} (moved_from : A -> A)
  (p : list A -> A -> bool) (n : nat) : forall (v : list A) (first i : nat),
  length (remove_if_by_loop moved_from p n v first i).1 = length v.
Proof.
  induction n as [|n IH]; intros v first i; simpl; [done|].
  destruct (v !! i) as [x|]; [|done].
  destruct (p v x); rewrite IH; [done|]. by rewrite !length_insert.
Qed.

Lemma remove_if_by_length {A : Type} (moved_from : A -> A)
  (p : list A -> A -> bool) (v : list A) :
  length (remove_if_by moved_from p v).1 = length v.
Proof.
  unfold remove_if_by.
  destruct (find_if (p v) v <? length v)%nat; [|done].
  apply remove_if_by_loop_length.
Qed.

Lemma DeleteMacro_macros (name : string) (s : CShader) :
  m_macros (DeleteMacro name s)
  = (remove_if ShaderMacro_moved_from
       (fun x => String.eqb (m_name_ x) name) (m_macros s)).1.
Proof.
  unfold DeleteMacro. cbn.
  exact (f_equal fst
           (remove_if_by_const ShaderMacro_moved_from
              (fun x => String.eqb (m_name_ x) name) (m_macros s))).
Qed.

Lemma DeleteMacro_length (name : NameRef) (s : CShader) :
  length (m_macros (DeleteMacro name s)) = length (m_macros s).
Proof. unfold DeleteMacro. cbn. apply remove_if_by_length. Qed.

(** ** The projected macro array *)

Lemma transform_spec {A B : Type} (f : A -> B) (src : list A) :
  forall (dst : list B) (i : nat),
  i + length src <= length dst ->
  transform f src dst i = take i dst ++ map f src ++ drop (i + length src) dst.
Proof.
  induction src as [|x src IH]; intros dst i Hlen; simpl in Hlen |- *.
  - by rewrite Nat.add_0_r, take_drop.
  - assert (Hi : i < length dst) by lia.
    assert (Hrest : S i + length src <= length (<[i:=f x]> dst))
      by (rewrite length_insert; lia).
    rewrite (IH _ _ Hrest).
    erewrite take_S_r by (by apply list_lookup_insert_eq).
    rewrite take_insert_ge by done.
    rewrite drop_insert_lt by lia.
    rewrite <- app_assoc. simpl. by rewrite Nat.add_succ_r.
Qed.

Lemma rebuild_shader_macros_spec (s : CShader) :
  rebuild_shader_macros s = map project_macro (m_macros s) ++ [NULL_MACRO].
Proof.
  unfold rebuild_shader_macros, assign_back.
  set (n := length (m_macros s)).
  set (v0 := resize (n + 1) NULL_MACRO (m_shader_macros s)).
  assert (Hv0 : length v0 = n + 1) by apply length_resize.
  rewrite transform_spec by (simpl; lia). simpl.
  fold n.
  assert (Hd : length (drop n v0) = 1) by (rewrite length_drop; lia).
  destruct (drop n v0) as [|y [|z tl]]; simpl in Hd; try lia.
  rewrite length_app, length_map. fold n. simpl.
  rewrite insert_app_r_alt by (rewrite length_map; fold n; lia).
  rewrite length_map. fold n.
  replace (n + 1 - 1 - n) with 0 by lia. done.
Qed.

(** ** [Compile] *)

Section CompileFacts.
Context {World : Type} `{Platform World}.

Lemma Compile_macro_changed (s : CShader) (e : Env World) :
  m_is_macro_changed (Compile s e).1.2 = false.
Proof. open_Compile; reflexivity. Qed.

Lemma Compile_macros (s : CShader) (e : Env World) :
  m_macros (Compile s e).1.2 = m_macros s.
Proof. open_Compile; reflexivity. Qed.

Lemma Compile_shader_macros (s : CShader) (e : Env World) :
  m_shader_macros (Compile s e).1.2
  = if triggers_rebuild s
    then map project_macro (m_macros s) ++ [NULL_MACRO]
    else m_shader_macros s.
Proof. open_Compile; try reflexivity; apply rebuild_shader_macros_spec. Qed.

Lemma new_calls_app (e : Env World) (l : list D3DCompileArgs) (w : World) :
  new_calls e (mkEnv w (d3d_calls e ++ l)) = l.
Proof. unfold new_calls. simpl. by rewrite drop_app_length. Qed.

Lemma new_calls_refl (e : Env World) : new_calls e e = [].
Proof. unfold new_calls. by rewrite drop_all. Qed.

(** [Compile] invokes the compiler exactly when the configuration flag is
    set, once, with the arguments of lines 40-48. *)
Lemma Compile_new_calls (s : CShader) (e : Env World) :
  new_calls e (Compile s e).2
  = if m_is_config_changed s then [compile_args (after_macro_step s)] else [].
Proof.
  unfold after_macro_step.
  open_Compile; rewrite ?new_calls_app, ?new_calls_refl; try reflexivity;
    congruence.
Qed.

Lemma Compile_invocations (s : CShader) (e : Env World) :
  invocations e (Compile s e).2 = if m_is_config_changed s then 1 else 0.
Proof.
  unfold invocations. rewrite Compile_new_calls.
  by destruct (m_is_config_changed s).
Qed.


(** A clean unit is a fixed point of [Compile]. *)
Lemma Compile_clean (s : CShader) (e : Env World) :
  m_is_config_changed s = false -> m_is_macro_changed s = false ->
  Compile s e = (Returned (m_p_cached_byte_code s), s, e).
Proof.
  intros Hc Hm. unfold Compile, triggers_rebuild. rewrite Hm. simpl.
  destruct s; simpl in *; subst. reflexivity.
Qed.

End CompileFacts.

(** ** Dirty flags of the mutators *)

(** C1. Every mutator sets [m_is_config_changed], but [AddMacro] and
    [DeleteMacro] do not set [m_is_macro_changed]: on a unit that has been
    compiled once the flag is clear, stays clear through both macro
    mutators, and the next [Compile] hands the compiler the array of the
    previous build (here the empty one) although a macro is configured. *)
Theorem C1_macro_mutators_leave_macro_flag_clear :
  m_is_macro_changed clean_unit = false /\
  m_is_config_changed (AddMacro macro_A clean_unit) = true /\
  m_is_macro_changed (AddMacro macro_A clean_unit) = false /\
  m_is_config_changed (DeleteMacro "A" (AddMacro macro_A clean_unit)) = true /\
  m_is_macro_changed (DeleteMacro "A" (AddMacro macro_A clean_unit)) = false /\
  m_macros (AddMacro macro_A clean_unit) = [macro_A] /\
  m_shader_macros
    (@Compile unit stub_ok (AddMacro macro_A clean_unit) env0).1.2 = [].
Proof. repeat split; vm_compute; reflexivity. Qed.

(** ** Deleting a macro *)

(** C2. Two macros [A], [B] are set on a fresh unit, [DeleteMacro "B"] is
    called and the unit is compiled: the projected array still holds both
    macros before the sentinel, two real entries where the claim has one. *)
Theorem C2_deleted_macro_still_projected :
  let s := DeleteMacro "B" (AddMacro macro_B (AddMacro macro_A CShader_default)) in
  let s' := (@Compile unit stub_ok s env0).1.2 in
  length (m_macros (AddMacro macro_B (AddMacro macro_A CShader_default))) = 2 /\
  m_shader_macros s'
  = [project_macro macro_A; project_macro macro_B; NULL_MACRO] /\
  length (List.filter is_real_entry (m_shader_macros s')) = 2.
Proof. repeat split; vm_compute; reflexivity. Qed.

(** C9. [DeleteMacro] leaves the length of the macro sequence unchanged,
    for every unit and every name, also a name that refers into the
    macro sequence itself: elements are move-assigned within the vector
    and nothing is erased from it. *)
Theorem C9_DeleteMacro_keeps_length (s : CShader) (name : NameRef) :
  length (m_macros (DeleteMacro name s)) = length (m_macros s).
Proof.
  unfold DeleteMacro. cbn [m_macros set_macros].
  apply remove_if_by_length.
Qed.

(** ** Sequences of mutators *)

(** C7. Over any sequence of mutator calls with no [Compile] between
    them the cached bytecode is the one the unit started with, and from
    the first call on [m_is_config_changed] is set. *)
Theorem C7_mutators_frame (s : CShader) (ms : list Mutator) :
  m_p_cached_byte_code (call_mutators ms s) = m_p_cached_byte_code s /\
  m_is_config_changed (call_mutators ms s)
  = match ms with [] => m_is_config_changed s | _ => true end.
Proof.
  induction ms as [|m ms IH] using rev_ind; [done|].
  rewrite call_mutators_snoc, call_mutator_cached, call_mutator_config_changed.
  split; [apply IH|]. by destruct ms.
Qed.

(** ** The compile step *)

Section CompileContract.
Context {World : Type} `{Platform World}.


(** C6. After a macro mutation, a [Compile] whose test of line 23
    succeeds leaves a projected array of [m_macros.size() + 1] entries
    that ends with the null pair, whether or not the compiler call that
    follows fails. *)
Theorem C6_rebuilt_array_shape (m : Mutator) (s0 : CShader) (e : Env World) :
  is_macro_mutator m = true ->
  triggers_rebuild (call_mutator m s0) = true ->
  let s' := (Compile (call_mutator m s0) e).1.2 in
  length (m_shader_macros s') = length (m_macros s') + 1 /\
  last (m_shader_macros s') = Some NULL_MACRO.
Proof.
  intros _ Hreb s'. subst s'.
  rewrite Compile_shader_macros, Compile_macros, Hreb.
  rewrite length_app, length_map, last_snoc. done.
Qed.

(** C8. [Compile] always leaves [m_is_macro_changed] clear.  With an
    empty macro list the projected array is not touched and every
    compiler invocation of the call gets a null macro pointer. *)
Theorem C8_Compile_clears_macro_flag (s : CShader) (e : Env World) :
  m_is_macro_changed (Compile s e).1.2 = false /\
  (m_macros s = [] ->
   m_shader_macros (Compile s e).1.2 = m_shader_macros s /\
   Forall (fun args => pDefines args = None) (new_calls e (Compile s e).2)).
Proof.
  split; [apply Compile_macro_changed|]. intros Hempty.
  assert (Hreb : triggers_rebuild s = false).
  { unfold triggers_rebuild, macros_empty. rewrite Hempty.
    by destruct (m_is_macro_changed s). }
  rewrite Compile_shader_macros, Compile_new_calls, Hreb.
  split; [done|].
  destruct (m_is_config_changed s); [|constructor].
  constructor; [|constructor].
  unfold after_macro_step. rewrite Hreb.
  unfold compile_args, macros_argument, macros_empty. simpl.
  by rewrite Hempty.
Qed.

(** C10. On every unit [GetInclude] returns the include pointer and
    sets [m_is_config_changed], nothing else, and the [Compile] that
    follows it invokes the compiler once; on a clean unit [Compile]
    would not have invoked it. *)
Theorem C10_GetInclude_dirties (s : CShader) (e : Env World) :
  (GetInclude s).1 = m_p_include s /\
  (GetInclude s).2 = set_is_config_changed true s /\
  invocations e (Compile (GetInclude s).2 e).2 = 1 /\
  (m_is_config_changed s = false -> invocations e (Compile s e).2 = 0).
Proof.
  rewrite !Compile_invocations. repeat split.
  intros Hclean. by rewrite Hclean.
Qed.

(** ** Failure of the compiler *)

(** [Compile] by cases on the configuration flag and the status. *)
Lemma Compile_eq (s : CShader) (e : Env World) :
  Compile s e =
  let s1 := after_macro_step s in
  if m_is_config_changed s then
    let '(out, w) := D3DCompile (compile_args s1) (world e) in
    let calls := d3d_calls e ++ [compile_args s1] in
    let s2 := set_p_cached_byte_code (ppCode out) s1 in
    if FAILED (d3d_hr out) then
      let '(ex, w') :=
        CDXShaderException_ctor (d3d_hr out) "Compile DX shader failed."
          (ppErrorMsgs out) w in
      (Thrown ex, s2, mkEnv w' calls)
    else (Returned (ppCode out), set_is_config_changed false s2, mkEnv w calls)
  else (Returned (m_p_cached_byte_code s), s1, e).
Proof.
  unfold after_macro_step, Compile, ThrowIfFailed_CDXShaderException.
  destruct (triggers_rebuild s); cbn;
    destruct (m_is_config_changed s); try reflexivity;
    match goal with
    | |- context [D3DCompile ?a ?w] => destruct (D3DCompile a w) as [out w']
    end;
    destruct (FAILED (d3d_hr out)); try reflexivity;
    destruct (CDXShaderException_ctor _ _ _ _); reflexivity.
Qed.

(** The exception built for a failed call does not depend on the status
    it is built from. *)
Lemma CDXShaderException_ctor_ignores_hr (hr1 hr2 : HRESULT)
  (p_error : string) (p_shader_error : ComPtr ID3DBlob) (w : World) :
  CDXShaderException_ctor hr1 p_error p_shader_error w
  = CDXShaderException_ctor hr2 p_error p_shader_error w.
Proof. reflexivity. Qed.

(** A failed compiler call: [Compile] throws, the message is the prefix
    followed by the diagnostic text, the stored status is what
    [GetErrorInfo] returned, the configuration flag stays set and the
    next [Compile] invokes the compiler again. *)
Lemma Compile_failure (s : CShader) (e : Env World) (out : D3DCompileOut)
  (w : World) :
  m_is_config_changed s = true ->
  D3DCompile (compile_args (after_macro_step s)) (world e) = (out, w) ->
  FAILED (d3d_hr out) = true ->
  exists ex,
    (Compile s e).1.1 = Thrown ex /\
    what ex = match ppErrorMsgs out with
              | Some blob =>
                  String.append "Compile DX shader failed."
                    (GetBufferPointer blob)
              | None => "Compile DX shader failed."%string
              end /\
    runtime_error_what (base ex) = "Compile DX shader failed."%string /\
    GetHResult (base ex) = (GetErrorInfo w).1.1 /\
    m_is_config_changed (Compile s e).1.2 = true /\
    invocations (Compile s e).2 (Compile (Compile s e).1.2 (Compile s e).2).2
    = 1.
Proof.
  intros Hc Hd Hf. rewrite Compile_invocations, Compile_eq.
  cbv zeta. rewrite Hc, Hd, Hf.
  unfold CDXShaderException_ctor, CHResultException_ctor.
  destruct (GetErrorInfo w) as [[r p_err] w'].
  eexists. split; [reflexivity|].
  unfold what, GetHResult, after_macro_step. cbn.
  repeat split; try (by destruct (ppErrorMsgs out)).
  all: by destruct (triggers_rebuild s); cbn; rewrite Hc.
Qed.

End CompileContract.

(** C4. The compiler fails with [E_FAIL] and the diagnostic
    ["syntax error"]: [Compile] throws, the message is the prefix followed
    by the diagnostic, the configuration flag stays set and the next
    [Compile] invokes the compiler again; but the status the exception
    holds is the result of [GetErrorInfo] ([S_FALSE] here), not the
    [E_FAIL] it was built from. *)
Theorem C4_exception_drops_status_code :
  let r := @Compile unit stub_fail (SetCode "x" CShader_default) env0 in
  exists ex,
    r.1.1 = Thrown ex /\
    what ex = "Compile DX shader failed.syntax error"%string /\
    m_is_config_changed r.1.2 = true /\
    invocations r.2 (@Compile unit stub_fail r.1.2 r.2).2 = 1 /\
    GetHResult (base ex) = S_FALSE /\
    GetHResult (base ex) <> E_FAIL.
Proof.
  eexists. split; [vm_compute; reflexivity|].
  repeat split; try (vm_compute; reflexivity).
  vm_compute. discriminate.
Qed.

(** ** Validity of the cache *)

Section CacheValidity.
Context {World : Type} `{Platform World}.

(** The contract of the compiler: a call that does not fail stores a
    blob. *)
Hypothesis D3DCompile_stores_code : forall args w,
  FAILED (d3d_hr (D3DCompile args w).1) = false ->
  ppCode (D3DCompile args w).1 <> None.

Lemma run_call_cache_invariant (c : Call) (h : list Event) (s : CShader)
  (e : Env World) :
  succeeded_since_change h = negb (m_is_config_changed s) ->
  (m_is_config_changed s = false -> m_p_cached_byte_code s <> None) ->
  succeeded_since_change ((run_call c s e).1.1 :: h)
  = negb (m_is_config_changed (run_call c s e).1.2) /\
  (m_is_config_changed (run_call c s e).1.2 = false ->
   m_p_cached_byte_code (run_call c s e).1.2 <> None).
Proof.
  intros Hh Hc. destruct c as [m| |]; simpl.
  - rewrite call_mutator_config_changed. by split.
  - by split.
  - rewrite Compile_eq. cbv zeta.
    assert (Hflag : m_is_config_changed (after_macro_step s)
                    = m_is_config_changed s)
      by (unfold after_macro_step; by destruct (triggers_rebuild s)).
    assert (Hcache : m_p_cached_byte_code (after_macro_step s)
                     = m_p_cached_byte_code s)
      by (unfold after_macro_step; by destruct (triggers_rebuild s)).
    destruct (m_is_config_changed s) eqn:Hcfg.
    + pose proof (D3DCompile_stores_code
                    (compile_args (after_macro_step s)) (world e)) as Hok.
      destruct (D3DCompile _ _) as [out w]. cbn [fst] in Hok.
      destruct (FAILED (d3d_hr out)) eqn:Hf.
      * destruct (CDXShaderException_ctor _ _ _ _) as [ex w'].
        cbn [fst snd succeeded_since_change].
        replace (m_is_config_changed
                   (set_p_cached_byte_code (ppCode out) (after_macro_step s)))
          with (m_is_config_changed (after_macro_step s)) by reflexivity.
        rewrite Hflag, Hh. split; [done|]. discriminate.
      * cbn. split; [done|]. intros _. by apply Hok.
    + cbn [fst snd succeeded_since_change].
      rewrite Hflag, Hcache, Hh. split; [done|]. intros _. by apply Hc.
Qed.

Lemma run_calls_cache_invariant (cs : list Call) :
  forall (h : list Event) (s : CShader) (e : Env World),
  succeeded_since_change h = negb (m_is_config_changed s) ->
  (m_is_config_changed s = false -> m_p_cached_byte_code s <> None) ->
  succeeded_since_change (run_calls cs h s e).1.1
  = negb (m_is_config_changed (run_calls cs h s e).1.2) /\
  (m_is_config_changed (run_calls cs h s e).1.2 = false ->
   m_p_cached_byte_code (run_calls cs h s e).1.2 <> None).
Proof.
  induction cs as [|c cs IH]; intros h s e Hh Hc; simpl; [by split|].
  destruct (run_call_cache_invariant c h s e Hh Hc) as [H1 H2].
  destruct (run_call c s e) as [[ev s'] e']. simpl in *. by apply IH.
Qed.

(** C5, as amended.  On a unit driven from construction by any calls:
    when a compile has succeeded since the last call that set
    [m_is_config_changed], the cached bytecode is non-null; and a mutator
    leaves the cached bytecode as it is. *)
Theorem C5_cache_valid_after_success (cs : list Call) (e : Env World) :
  let r := run_calls cs [] CShader_default e in
  (succeeded_since_change r.1.1 = true -> m_p_cached_byte_code r.1.2 <> None)
  /\ forall m : Mutator,
       m_p_cached_byte_code (call_mutator m r.1.2) = m_p_cached_byte_code r.1.2.
Proof.
  cbv zeta. split; [|intros m; apply call_mutator_cached].
  destruct (run_calls_cache_invariant cs [] CShader_default e) as [H1 H2];
    [done|discriminate|].
  intros Hs. apply H2. rewrite Hs in H1. by destruct (m_is_config_changed _).
Qed.

End CacheValidity.

(** C5, as stated, fails: after a successful [Compile] and a [SetCode]
    the cache is still non-null although no compile has succeeded since
    the change. *)
Lemma C5_counterexample :
  let r := @run_calls unit stub_ok
             [CallCompile; CallMutator (MSetCode "x")] [] CShader_default env0 in
  ~ (m_p_cached_byte_code r.1.2 <> None <->
     succeeded_since_change r.1.1 = true).
Proof.
  cbv zeta. intros [Hto _].
  assert (Hfalse : false = true) by (apply Hto; vm_compute; discriminate).
  discriminate Hfalse.
Qed.


(** ** Instances on the stub platforms *)


Lemma C5_cache_valid_after_success_witness :
  let r := @run_calls unit stub_ok
             [CallMutator (MSetCode "x"); CallCompile] [] CShader_default env0 in
  succeeded_since_change r.1.1 = true /\ m_p_cached_byte_code r.1.2 <> None.
Proof.
  cbv zeta. split; [vm_compute; reflexivity|].
  apply (@C5_cache_valid_after_success unit stub_ok
           (fun args w (_ : FAILED S_OK = false) =>
              @Some_ne_None ID3DBlob blob_B)
           [CallMutator (MSetCode "x"); CallCompile] env0).
  vm_compute; reflexivity.
Defined.

Lemma C6_rebuilt_array_shape_witness :
  let s' := (@Compile unit stub_ok (AddMacro macro_A CShader_default) env0).1.2 in
  length (m_shader_macros s') = length (m_macros s') + 1 /\
  last (m_shader_macros s') = Some NULL_MACRO.
Proof.
  apply (@C6_rebuilt_array_shape unit stub_ok (MAddMacro macro_A)
           CShader_default env0); vm_compute; reflexivity.
Defined.

Lemma C8_Compile_clears_macro_flag_witness :
  m_macros CShader_default = [] /\
  m_shader_macros (@Compile unit stub_ok CShader_default env0).1.2 = [] /\
  Forall (fun args => pDefines args = None)
    (new_calls env0 (@Compile unit stub_ok CShader_default env0).2).
Proof.
  split; [reflexivity|].
  apply (proj2 (@C8_Compile_clears_macro_flag unit stub_ok CShader_default env0)).
  reflexivity.
Defined.

Lemma C10_GetInclude_dirties_witness :
  m_is_config_changed clean_unit = false /\
  invocations env0 (@Compile unit stub_ok clean_unit env0).2 = 0 /\
  invocations env0 (@Compile unit stub_ok (GetInclude clean_unit).2 env0).2 = 1.
Proof.
  destruct (@C10_GetInclude_dirties unit stub_ok clean_unit env0)
    as (_ & _ & Hafter & Hbefore).
  split; [vm_compute; reflexivity|].
  split; [apply Hbefore; vm_compute; reflexivity|exact Hafter].
Defined.

(** * Further properties of the configuration surface *)

(** X1. Two mutators that assign different members commute. *)
Theorem mutators_commute (m1 m2 : Mutator) (s : CShader) :
  member_written m1 <> member_written m2 ->
  call_mutator m1 (call_mutator m2 s) = call_mutator m2 (call_mutator m1 s).
Proof. destruct m1, m2; simpl; intros Hne; try reflexivity; congruence. Qed.

(** X2. Of two setters of the same member the later one wins: the unit
    is as if the earlier call had not been made. *)
Theorem setter_last_write_wins (m1 m2 : Mutator) (s : CShader) :
  is_macro_mutator m2 = false ->
  member_written m1 = member_written m2 ->
  call_mutator m2 (call_mutator m1 s) = call_mutator m2 s.
Proof.
  destruct m2; simpl; try discriminate; intros _;
    destruct m1; simpl; try discriminate; reflexivity.
Qed.

(** X3. [AddMacro] keeps insertion order: after adding the macros of a
    list one by one, [GetMacros] is what it was, followed by the list. *)
Theorem AddMacro_keeps_insertion_order (l : list ShaderMacro) (s : CShader) :
  GetMacros (call_mutators (map MAddMacro l) s) = GetMacros s ++ l.
Proof.
  unfold GetMacros, call_mutators. revert s.
  induction l as [|x l IH]; intros s; simpl; [by rewrite app_nil_r|].
  rewrite IH. simpl. by rewrite <- app_assoc.
Qed.

(** ** [std::remove_if], the whole vector *)

Section RemoveIfTail.
Context {A : Type} (moved_from : A -> A) (p : A -> bool).

Abbreviation keep := (List.filter (fun x => negb (p x))).
Abbreviation left_behind := (fun x => if p x then x else moved_from x).

Lemma remove_if_loop_end (n : nat) : forall (v : list A) (first i : nat),
  first <= (remove_if_loop moved_from p n v first i).2 <= first + n.
Proof.
  induction n as [|n IH]; intros v first i; simpl; [lia|].
  destruct (v !! i) as [x|]; simpl; [|lia].
  destruct (p x).
  - specialize (IH v first (S i)). lia.
  - specialize (IH (<[i:=moved_from x]> (<[first:=x]> v)) (S first) (S i)).
    lia.
Qed.

(** From the returned iterator on: what lies before [i] is as it was,
    what lies from [i] on is the original element if it satisfies [p] and
    its moved-from state if it does not. *)
Lemma remove_if_loop_tail (n : nat) : forall (v : list A) (first i j : nat),
  first < i -> i + n = length v ->
  (remove_if_loop moved_from p n v first i).2 <= j ->
  (remove_if_loop moved_from p n v first i).1 !! j
  = if j <? i then v !! j else left_behind <$> v !! j.
Proof.
  induction n as [|n IH]; intros v first i j Hfi Hlen Hj; simpl in *.
  - destruct (Nat.ltb_spec j i); [done|].
    rewrite (proj2 (lookup_ge_None v j)) by lia. done.
  - destruct (v !! i) as [x|] eqn:Hi.
    2:{ apply lookup_ge_None in Hi. lia. }
    destruct (p x) eqn:Hp.
    + rewrite (IH v first (S i) j) by (done || lia).
      destruct (Nat.ltb_spec j (S i)), (Nat.ltb_spec j i); try lia; try done.
      assert (j = i) as -> by lia. rewrite Hi. simpl. by rewrite Hp.
    + pose proof (remove_if_loop_end n
                    (<[i:=moved_from x]> (<[first:=x]> v)) (S first) (S i))
        as Hend.
      rewrite (IH _ (S first) (S i) j)
        by (done || lia || (rewrite !length_insert; lia)).
      destruct (Nat.ltb_spec j (S i)), (Nat.ltb_spec j i); try lia.
      * rewrite !list_lookup_insert_ne by lia. done.
      * assert (j = i) as -> by lia.
        rewrite list_lookup_insert_eq by (rewrite length_insert; lia).
        rewrite Hi. simpl. by rewrite Hp.
      * rewrite !list_lookup_insert_ne by lia. done.
Qed.

Lemma remove_if_end (v : list A) :
  (remove_if moved_from p v).2 = length (keep v).
Proof.
  destruct (remove_if_spec moved_from p v) as [Hlen Hkeep].
  assert (Hle : (remove_if moved_from p v).2 <= length v).
  { unfold remove_if. pose proof (find_if_le p v).
    destruct (Nat.ltb_spec (find_if p v) (length v)); simpl; [|lia].
    pose proof (remove_if_loop_end (length v - S (find_if p v)) v
                  (find_if p v) (S (find_if p v))). lia. }
  rewrite <- Hkeep, length_take. lia.
Qed.

(** The vector after [remove_if]: the elements that do not satisfy [p],
    in order, then the rest of the original vector, position by position,
    with every element that was moved away left in its moved-from state. *)
Lemma remove_if_closed_form (v : list A) :
  (remove_if moved_from p v).1
  = keep v ++ map left_behind (drop (length (keep v)) v).
Proof.
  destruct (remove_if_spec moved_from p v) as [Hlen Hkeep].
  rewrite <- (take_drop (length (keep v)) (remove_if moved_from p v).1).
  rewrite <- remove_if_end at 1. rewrite Hkeep. f_equal.
  rewrite <- remove_if_end.
  apply list_eq. intros k.
  rewrite lookup_drop, list_lookup_fmap, lookup_drop.
  set (j := (remove_if moved_from p v).2 + k).
  assert (Hj : (remove_if moved_from p v).2 <= j) by lia.
  clearbody j. clear Hlen Hkeep.
  unfold remove_if in *. pose proof (find_if_le p v) as Hle.
  destruct (Nat.ltb_spec (find_if p v) (length v)) as [Hlt|Hge]; simpl in *.
  - pose proof (remove_if_loop_end (length v - S (find_if p v)) v
                  (find_if p v) (S (find_if p v))) as Hend.
    rewrite remove_if_loop_tail by (done || lia).
    destruct (Nat.ltb_spec j (S (find_if p v))); [|done].
    assert (j = find_if p v) as -> by lia.
    destruct (find_if_hit p v Hlt) as (x & Hx & Hp).
    rewrite Hx. simpl. by rewrite Hp.
  - rewrite (proj2 (lookup_ge_None v j)) by lia. done.
Qed.

End RemoveIfTail.

(** ** Further properties of [DeleteMacro] *)

(** X4. The macro vector after [DeleteMacro(name)], in full, for a name
    that is not a reference into the macro vector: first the macros with
    another name, in order; behind them the vector is as long as before
    and holds, position by position, the old macro if it has the name
    and the moved-from macro if it has not. *)
Theorem DeleteMacro_closed_form (name : string) (s : CShader) :
  let kept := List.filter (fun x => negb (has_name name x)) (m_macros s) in
  m_macros (DeleteMacro (detached name) s)
  = kept ++ map (fun x => if has_name name x then x
                          else ShaderMacro_moved_from x)
              (drop (length kept) (m_macros s)).
Proof.
  cbv zeta. rewrite DeleteMacro_macros.
  apply (remove_if_closed_form ShaderMacro_moved_from (has_name name)).
Qed.

(** A name that refers into the vector is read anew at each comparison:
    [DeleteMacro(GetMacros()[0].m_name)] on [A, B, A, C] compares the
    third macro with ["B"], which the first slot holds by then. *)
Example DeleteMacro_by_reference_into_macros :
  let macro (n d : string) := {| m_name_ := n; m_definition := d |} in
  let s := set_macros [macro "A" "1"; macro "B" "2"; macro "A" "3";
                       macro "C" "4"] CShader_default in
  m_macros (DeleteMacro (macro_name_of 0) s)
  = [macro "B" "2"; macro "A" "3"; macro "C" "4"; macro EmptyString EmptyString] /\
  m_macros (DeleteMacro (detached "A") s)
  = [macro "B" "2"; macro "C" "4"; macro "A" "3"; macro EmptyString EmptyString].
Proof. split; vm_compute; reflexivity. Qed.



(** * Further properties of [Compile] *)

Section CompileMore.
Context {World : Type} `{Platform World}.

(** X7. [Compile] is [const] in earnest: whether it returns or throws,
    no configuration member is changed. *)
Theorem Compile_preserves_configuration (s : CShader) (e : Env World) :
  configuration (Compile s e).1.2 = configuration s.
Proof. unfold configuration. open_Compile; reflexivity. Qed.

Lemma same_member_trans (mem : Member) (s s' s'' : CShader) :
  same_member mem s s' -> same_member mem s' s'' -> same_member mem s s''.
Proof. destruct mem; simpl; congruence. Qed.

Lemma Compile_same_member (mem : Member) (s : CShader) (e : Env World) :
  same_member mem s (Compile s e).1.2.
Proof. destruct mem; simpl; open_Compile; reflexivity. Qed.

Lemma run_call_same_member (mem : Member) (c : Call) (s : CShader)
  (e : Env World) :
  leaves_member mem c = true -> same_member mem s (run_call c s e).1.2.
Proof.
  destruct c as [m| |]; simpl.
  - intros Hne. apply bool_decide_eq_true in Hne.
    destruct m, mem; simpl in *; try reflexivity; congruence.
  - intros _. by destruct mem.
  - intros _. pose proof (Compile_same_member mem s e) as Hc.
    by destruct (Compile s e) as [[r s'] e'].
Qed.

(** X8. A configured member keeps its value through any calls, compiles
    included, until a mutator of that very member is called. *)
Theorem configuration_persists (mem : Member) (cs : list Call) :
  forall (h : list Event) (s : CShader) (e : Env World),
  forallb (leaves_member mem) cs = true ->
  same_member mem s (run_calls cs h s e).1.2.
Proof.
  induction cs as [|c cs IH]; intros h s e Hcs; simpl in *.
  - by destruct mem.
  - apply andb_prop in Hcs as [Hc Hcs].
    pose proof (run_call_same_member mem c s e Hc) as Hstep.
    destruct (run_call c s e) as [[ev s'] e']. simpl in Hstep.
    eapply same_member_trans; [exact Hstep|]. by apply IH.
Qed.

(** [Compile] when the compiler call does not fail. *)
Lemma Compile_not_failed (s : CShader) (e : Env World) (out : D3DCompileOut)
  (w : World) :
  m_is_config_changed s = true ->
  D3DCompile (compile_args (after_macro_step s)) (world e) = (out, w) ->
  FAILED (d3d_hr out) = false ->
  Compile s e
  = (Returned (ppCode out),
     set_is_config_changed false
       (set_p_cached_byte_code (ppCode out) (after_macro_step s)),
     mkEnv w (d3d_calls e ++ [compile_args (after_macro_step s)])).
Proof.
  intros Hc Hd Hf. rewrite Compile_eq. cbv zeta. by rewrite Hc, Hd, Hf.
Qed.

(** X9. The success path.  With the configuration flag set and a compiler
    call that does not fail, [Compile] returns the blob the compiler
    stored and caches it, clears both flags, has invoked the compiler
    once and consulted nothing else; the next [Compile] returns the same
    blob without an invocation. *)
Theorem Compile_success (s : CShader) (e : Env World) (out : D3DCompileOut)
  (w : World) :
  m_is_config_changed s = true ->
  D3DCompile (compile_args (after_macro_step s)) (world e) = (out, w) ->
  FAILED (d3d_hr out) = false ->
  (Compile s e).1.1 = Returned (ppCode out) /\
  m_p_cached_byte_code (Compile s e).1.2 = ppCode out /\
  m_is_config_changed (Compile s e).1.2 = false /\
  m_is_macro_changed (Compile s e).1.2 = false /\
  world (Compile s e).2 = w /\
  invocations e (Compile s e).2 = 1 /\
  Compile (Compile s e).1.2 (Compile s e).2
  = (Returned (ppCode out), (Compile s e).1.2, (Compile s e).2).
Proof.
  intros Hc Hd Hf.
  rewrite Compile_invocations, Hc.
  rewrite (Compile_not_failed s e out w Hc Hd Hf). cbn [fst snd].
  split; [reflexivity|]. do 5 (split; [reflexivity|]).
  by apply Compile_clean.
Qed.

(** X18. The failure path.  With the configuration flag set and a
    compiler call that fails, [Compile] throws.  [what()] is the fixed
    prefix, followed by the text of the diagnostic blob when there is
    one; status, [HasError] and error object of the exception are those
    of [GetErrorInfo], whatever the compiler's status was.  The macro
    flag is cleared, the configuration flag stays set, and the next
    [Compile] invokes the compiler again. *)
Theorem Compile_throws_on_failure (s : CShader) (e : Env World)
  (out : D3DCompileOut) (w : World) :
  m_is_config_changed s = true ->
  D3DCompile (compile_args (after_macro_step s)) (world e) = (out, w) ->
  FAILED (d3d_hr out) = true ->
  exists ex,
    (Compile s e).1.1 = Thrown ex /\
    what ex = match ppErrorMsgs out with
              | Some blob =>
                  String.append "Compile DX shader failed."
                    (GetBufferPointer blob)
              | None => "Compile DX shader failed."%string
              end /\
    GetHResult (base ex) = (GetErrorInfo w).1.1 /\
    HasError (base ex) = SUCCEEDED (GetErrorInfo w).1.1 /\
    m_p_error (base ex) = (GetErrorInfo w).1.2 /\
    m_is_macro_changed (Compile s e).1.2 = false /\
    m_is_config_changed (Compile s e).1.2 = true /\
    invocations e (Compile s e).2 = 1 /\
    invocations (Compile s e).2 (Compile (Compile s e).1.2 (Compile s e).2).2
    = 1.
Proof.
  intros Hc Hd Hf.
  assert (Hflag : m_is_config_changed (after_macro_step s) = true)
    by (unfold after_macro_step; by destruct (triggers_rebuild s)).
  rewrite !Compile_invocations, Compile_macro_changed, Hc.
  rewrite Compile_eq. cbv zeta. rewrite Hc, Hd, Hf.
  unfold CDXShaderException_ctor, CHResultException_ctor, HasError, GetHResult.
  destruct (GetErrorInfo w) as [[r p_err] w'].
  eexists. split; [reflexivity|].
  cbn [fst snd what base m_error m_hr m_p_error].
  split; [by destruct (ppErrorMsgs out)|].
  do 4 (split; [reflexivity|]).
  replace (m_is_config_changed
             (set_p_cached_byte_code (ppCode out) (after_macro_step s)))
    with (m_is_config_changed (after_macro_step s)) by reflexivity.
  by rewrite Hflag.
Qed.

(** X10. What the compiler is given.  Every invocation made by [Compile]
    carries the unit's code with its length, its name, entry point,
    target and both flag words; the include handler is the configured
    pointer, or the standard file include when none is configured, and
    so never null. *)
Theorem Compile_passes_configuration (s : CShader) (e : Env World) :
  Forall (fun a =>
            pSrcData a = m_code s /\
            SrcDataSize a = String.length (m_code s) /\
            pSourceName a = m_name s /\
            pEntrypoint a = m_entry_point s /\
            pTarget a = m_target s /\
            Flags1 a = m_flags1 s /\
            Flags2 a = m_flags2 s /\
            pInclude a = (if N.eqb (m_p_include s) nullptr
                          then D3D_COMPILE_STANDARD_FILE_INCLUDE
                          else m_p_include s) /\
            pInclude a <> nullptr)
    (new_calls e (Compile s e).2).
Proof.
  rewrite Compile_new_calls.
  destruct (m_is_config_changed s); constructor; [|constructor].
  unfold after_macro_step.
  destruct (triggers_rebuild s); cbn; repeat split;
    destruct (N.eqb_spec (m_p_include s) nullptr); done.
Qed.

(** An array read right after it was built reads what was built. *)
Lemma read_macro_array_fresh (l : list ShaderMacro) :
  read_macro_array (map project_macro l ++ [NULL_MACRO]) l
  = map project_macro l ++ [NULL_MACRO].
Proof.
  apply list_eq. intros j. unfold read_macro_array.
  rewrite list_lookup_imap.
  destruct (Nat.lt_ge_cases j (length l)) as [Hlt|Hge].
  - rewrite lookup_app_l by (by rewrite length_map).
    rewrite list_lookup_fmap.
    destruct (l !! j) as [x|] eqn:Hj; [done|].
    apply lookup_ge_None in Hj. lia.
  - rewrite lookup_app_r by (by rewrite length_map).
    rewrite length_map.
    destruct (j - length l) as [|k]; [done|]. done.
Qed.

(** X11. The macros the compiler is given when the macro flag is set (as
    on a freshly constructed unit): none at all for an empty macro list,
    otherwise one pair per macro, in order, closed by the null pair. *)
Theorem Compile_passes_macros (s : CShader) (e : Env World) :
  m_is_macro_changed s = true ->
  m_is_config_changed s = true ->
  map pDefines (new_calls e (Compile s e).2)
  = [if macros_empty s then None
     else Some (map project_macro (m_macros s) ++ [NULL_MACRO])].
Proof.
  intros Hm Hc. rewrite Compile_new_calls, Hc. simpl. f_equal.
  unfold after_macro_step, triggers_rebuild, macros_argument.
  rewrite Hm. simpl.
  destruct (macros_empty s) eqn:He; simpl.
  - unfold macros_empty in *. simpl. by rewrite He.
  - unfold macros_empty in *. simpl. rewrite He.
    rewrite rebuild_shader_macros_spec.
    destruct (map project_macro (m_macros s) ++ [NULL_MACRO]) as [|y tl] eqn:Harr.
    { by destruct (m_macros s). }
    rewrite <- Harr. by rewrite read_macro_array_fresh.
Qed.

(** X12. [DeleteMacro] never lessens what the compiler is given: on a
    unit whose macro flag is set, the array built by the next [Compile]
    has as many real entries as there were macros before the deletion,
    whatever the name refers to. *)
Theorem DeleteMacro_keeps_projected_entries (name : NameRef) (s : CShader)
  (e : Env World) :
  m_is_macro_changed s = true ->
  m_macros s <> [] ->
  length (List.filter is_real_entry
            (m_shader_macros (Compile (DeleteMacro name s) e).1.2))
  = length (m_macros s).
Proof.
  intros Hm Hne.
  pose proof (DeleteMacro_length name s) as Hlen.
  assert (Hreb : triggers_rebuild (DeleteMacro name s) = true).
  { unfold triggers_rebuild, macros_empty.
    rewrite (call_mutator_macro_changed (MDeleteMacro name) s :
               m_is_macro_changed (DeleteMacro name s) = _), Hm.
    destruct (m_macros (DeleteMacro name s)); [|done].
    destruct (m_macros s); [done|discriminate]. }
  rewrite Compile_shader_macros, Hreb, <- Hlen.
  generalize (m_macros (DeleteMacro name s)). intros l.
  induction l as [|x l IH]; simpl; [done|]. by rewrite IH.
Qed.

(** ** Histories *)

Lemma run_call_flag (c : Call) (h : list Event) (s : CShader)
  (e : Env World) :
  m_is_config_changed s = negb (succeeded_since_change h) ->
  m_is_config_changed (run_call c s e).1.2
  = negb (succeeded_since_change ((run_call c s e).1.1 :: h)).
Proof.
  intros Hh. destruct c as [m| |]; simpl.
  - apply call_mutator_config_changed.
  - reflexivity.
  - rewrite Compile_eq. cbv zeta.
    assert (Hflag : m_is_config_changed (after_macro_step s)
                    = m_is_config_changed s)
      by (unfold after_macro_step; by destruct (triggers_rebuild s)).
    destruct (m_is_config_changed s) eqn:Hcfg.
    + destruct (D3DCompile _ _) as [out w].
      destruct (FAILED (d3d_hr out)); [|reflexivity].
      destruct (CDXShaderException_ctor _ _ _ _) as [ex w'].
      cbn [fst snd succeeded_since_change].
      replace (m_is_config_changed
                 (set_p_cached_byte_code (ppCode out) (after_macro_step s)))
        with (m_is_config_changed (after_macro_step s)) by reflexivity.
      by rewrite Hflag.
    + cbn [fst snd succeeded_since_change]. by rewrite Hflag.
Qed.

Lemma run_calls_flag (cs : list Call) :
  forall (h : list Event) (s : CShader) (e : Env World),
  m_is_config_changed s = negb (succeeded_since_change h) ->
  m_is_config_changed (run_calls cs h s e).1.2
  = negb (succeeded_since_change (run_calls cs h s e).1.1).
Proof.
  induction cs as [|c cs IH]; intros h s e Hh; simpl; [done|].
  pose proof (run_call_flag c h s e Hh) as Hstep.
  destruct (run_call c s e) as [[ev s'] e']. by apply IH.
Qed.

(** X13. The configuration flag tells the history of the unit: after any
    calls on a freshly constructed unit it is clear exactly when a
    compile has succeeded since the last call that set it. *)
Theorem config_flag_tracks_history (cs : list Call) (e : Env World) :
  m_is_config_changed (run_calls cs [] CShader_default e).1.2
  = negb (succeeded_since_change (run_calls cs [] CShader_default e).1.1).
Proof. by apply run_calls_flag. Qed.

Lemma run_call_count (c : Call) (s : CShader) (e : Env World) :
  length (d3d_calls (run_call c s e).2)
  = length (d3d_calls e)
    + (if invokes_compiler (run_call c s e).1.1 then 1 else 0) /\
  (invokes_compiler (run_call c s e).1.1 = true -> is_Compile_call c = true).
Proof.
  destruct c as [m| |]; simpl; try (split; [lia|discriminate]).
  rewrite Compile_eq. cbv zeta.
  destruct (m_is_config_changed s).
  - destruct (D3DCompile _ _) as [out w].
    destruct (FAILED (d3d_hr out)).
    + destruct (CDXShaderException_ctor _ _ _ _) as [ex w'].
      simpl. rewrite length_app. simpl. done.
    + simpl. rewrite length_app. simpl. done.
  - simpl. split; [lia|done].
Qed.

Lemma run_calls_count (cs : list Call) :
  forall (h : list Event) (s : CShader) (e : Env World),
  length (d3d_calls (run_calls cs h s e).2)
    + length (List.filter invokes_compiler h)
  = length (d3d_calls e)
    + length (List.filter invokes_compiler (run_calls cs h s e).1.1) /\
  length (List.filter invokes_compiler (run_calls cs h s e).1.1)
  <= length (List.filter invokes_compiler h)
     + length (List.filter is_Compile_call cs).
Proof.
  induction cs as [|c cs IH]; intros h s e; simpl; [lia|].
  destruct (run_call_count c s e) as [Hn Hc].
  destruct (run_call c s e) as [[ev s'] e']. simpl in Hn, Hc.
  destruct (IH (ev :: h) s' e') as [IH1 IH2]. simpl in IH1, IH2.
  destruct (invokes_compiler ev) eqn:Hev; simpl in *.
  - rewrite (Hc eq_refl). simpl. lia.
  - destruct (is_Compile_call c); simpl; lia.
Qed.

(** X14. The compiler is invoked by nothing but [Compile], and only by a
    [Compile] that finds the configuration flag set: over any calls the
    invocations number as the compiles that succeeded or failed, at most
    as the [Compile] calls. *)
Theorem invocations_count (cs : list Call) (s : CShader) (e : Env World) :
  length (d3d_calls (run_calls cs [] s e).2)
  = length (d3d_calls e)
    + length (List.filter invokes_compiler (run_calls cs [] s e).1.1) /\
  length (List.filter invokes_compiler (run_calls cs [] s e).1.1)
  <= length (List.filter is_Compile_call cs).
Proof.
  destruct (run_calls_count cs [] s e) as [H1 H2]. simpl in *. lia.
Qed.

(** ** The callers *)

(** X15. A shader set up as in main.cpp: the first [Compile] invokes the
    compiler once, with the code, names and flags of the setup, no
    macros and the standard file include, whatever the compiler answers;
    when that call does not fail its blob is returned, and the next
    [Compile] returns the same blob without invoking the compiler. *)
Theorem static_shader_compiles_once (code entry_point name target : string)
  (flags1 : UINT) (e : Env World) :
  let s := MakeStaticVariableWrapper
             (shader_setup code entry_point name target flags1) in
  let args := {| pSrcData := code; SrcDataSize := String.length code;
                 pSourceName := name; pDefines := None;
                 pInclude := D3D_COMPILE_STANDARD_FILE_INCLUDE;
                 pEntrypoint := entry_point; pTarget := target;
                 Flags1 := flags1; Flags2 := 0%N |} in
  new_calls e (Compile s e).2 = [args] /\
  forall (out : D3DCompileOut) (w : World),
    D3DCompile args (world e) = (out, w) ->
    FAILED (d3d_hr out) = false ->
    (Compile s e).1.1 = Returned (ppCode out) /\
    Compile (Compile s e).1.2 (Compile s e).2
    = (Returned (ppCode out), (Compile s e).1.2, (Compile s e).2).
Proof.
  intros s args.
  assert (Hargs : compile_args (after_macro_step s) = args) by reflexivity.
  split.
  - rewrite Compile_new_calls. cbn. by rewrite Hargs.
  - intros out w Hd Hf. rewrite <- Hargs in Hd.
    rewrite (Compile_not_failed s e out w eq_refl Hd Hf). cbn [fst snd].
    split; [reflexivity|]. by apply Compile_clean.
Qed.

End CompileMore.

(** * [FunctionChecker] *)

Section FunctionCheckerFacts.
Context {World : Type} `{Loader World}.

Lemma new_loader_calls_app (e : LoaderEnv World) (l : list LoaderCall)
  (w : World) :
  new_loader_calls e (mkLoaderEnv w (loader_calls e ++ l)) = l.
Proof. unfold new_loader_calls. simpl. by rewrite drop_app_length. Qed.

(** X16. [CheckLibraryExist] answers whether [LoadLibrary] gave a module.
    A module that was obtained is freed again, once; without a module
    nothing is freed. *)
Theorem CheckLibraryExist_spec (p_library_name : string)
  (e : LoaderEnv World) :
  let hmodule := (LoadLibrary p_library_name (loader_world e)).1 in
  (CheckLibraryExist p_library_name e).1 = negb (N.eqb hmodule 0) /\
  new_loader_calls e (CheckLibraryExist p_library_name e).2
  = Called_LoadLibrary p_library_name
      :: (if N.eqb hmodule 0 then [] else [Called_FreeLibrary hmodule]).
Proof.
  cbv zeta. unfold CheckLibraryExist, StrategicCheck.
  destruct (LoadLibrary p_library_name (loader_world e)) as [h w]. simpl.
  destruct (N.eqb h 0); simpl.
  - split; [done|]. apply new_loader_calls_app.
  - split; [done|]. rewrite <- app_assoc. apply new_loader_calls_app.
Qed.

(** X17. [CheckFunctionExist] is true exactly when the library loads and
    [GetProcAddress] finds the function in it.  [GetProcAddress] is asked
    only about a module that was obtained, and that module is freed
    again, once; when the library does not load the answer is false and
    no other loader call is made. *)
Theorem CheckFunctionExist_spec (p_library_name p_function_name : string)
  (e : LoaderEnv World) :
  let hmodule := (LoadLibrary p_library_name (loader_world e)).1 in
  let w := (LoadLibrary p_library_name (loader_world e)).2 in
  let p_test_function := (GetProcAddress hmodule p_function_name w).1 in
  (CheckFunctionExist p_library_name p_function_name e).1
  = negb (N.eqb hmodule 0) && negb (N.eqb p_test_function 0) /\
  new_loader_calls e (CheckFunctionExist p_library_name p_function_name e).2
  = Called_LoadLibrary p_library_name
      :: (if N.eqb hmodule 0 then []
          else [Called_GetProcAddress hmodule p_function_name;
                Called_FreeLibrary hmodule]).
Proof.
  cbv zeta. unfold CheckFunctionExist, StrategicCheck.
  destruct (LoadLibrary p_library_name (loader_world e)) as [h w]. simpl.
  destruct (N.eqb h 0); simpl.
  - split; [done|]. apply new_loader_calls_app.
  - destruct (GetProcAddress h p_function_name w) as [p w']. simpl.
    split; [done|]. rewrite <- !app_assoc. apply new_loader_calls_app.
Qed.

End FunctionCheckerFacts.

Example CheckFunctionExist_found :
  (@CheckFunctionExist unit stub_loader "d3d11.dll" "D3D11CreateDevice"
     loader_env0).1 = true.
Proof. reflexivity. Qed.

Example CheckFunctionExist_no_library :
  @CheckFunctionExist unit stub_loader "d3d12.dll" "D3D11CreateDevice"
    loader_env0
  = (false, mkLoaderEnv tt [Called_LoadLibrary "d3d12.dll"]).
Proof. reflexivity. Qed.

(** ** Instances of the further properties *)

Lemma mutators_commute_witness :
  member_written (MSetCode "x") <> member_written (MAddMacro macro_A) /\
  SetCode "x" (AddMacro macro_A CShader_default)
  = AddMacro macro_A (SetCode "x" CShader_default).
Proof.
  split; [discriminate|].
  apply (mutators_commute (MSetCode "x") (MAddMacro macro_A) CShader_default).
  simpl; discriminate.
Defined.

Lemma setter_last_write_wins_witness :
  SetTarget "ps_5_0" (SetTarget "ps_4_0" CShader_default)
  = SetTarget "ps_5_0" CShader_default.
Proof.
  apply (setter_last_write_wins (MSetTarget "ps_4_0") (MSetTarget "ps_5_0")
           CShader_default); reflexivity.
Defined.



Lemma configuration_persists_witness :
  m_code (@run_calls unit stub_ok
            [CallMutator (MSetTarget "ps_5_0"); CallCompile; CallGetInclude;
             CallMutator (MAddMacro macro_A); CallCompile]
            [] (SetCode "x" CShader_default) env0).1.2
  = "x"%string.
Proof.
  apply (@configuration_persists unit stub_ok code_member
           [CallMutator (MSetTarget "ps_5_0"); CallCompile; CallGetInclude;
            CallMutator (MAddMacro macro_A); CallCompile]
           [] (SetCode "x" CShader_default) env0).
  vm_compute; reflexivity.
Defined.

Lemma Compile_success_witness :
  (@Compile unit stub_ok (SetCode "x" clean_unit) env0).1.1
  = Returned (Some blob_B) /\
  invocations env0 (@Compile unit stub_ok (SetCode "x" clean_unit) env0).2 = 1.
Proof.
  destruct (@Compile_success unit stub_ok (SetCode "x" clean_unit) env0
              {| d3d_hr := S_OK; ppCode := Some blob_B; ppErrorMsgs := None |}
              tt)
    as (Hr & _ & _ & _ & _ & Hn & _);
    [reflexivity|reflexivity|reflexivity|].
  split; [exact Hr|exact Hn].
Defined.

Lemma Compile_passes_macros_witness :
  map pDefines
    (new_calls env0
       (@Compile unit stub_ok (AddMacro macro_A CShader_default) env0).2)
  = [Some [project_macro macro_A; NULL_MACRO]].
Proof.
  apply (@Compile_passes_macros unit stub_ok
           (AddMacro macro_A CShader_default) env0); reflexivity.
Defined.

Lemma DeleteMacro_keeps_projected_entries_witness :
  length (List.filter is_real_entry
            (m_shader_macros
               (@Compile unit stub_ok
                  (DeleteMacro "A"
                     (AddMacro macro_B (AddMacro macro_A CShader_default)))
                  env0).1.2))
  = 2.
Proof.
  apply (@DeleteMacro_keeps_projected_entries unit stub_ok "A"
           (AddMacro macro_B (AddMacro macro_A CShader_default)) env0);
    [reflexivity|discriminate].
Defined.

Lemma Compile_throws_on_failure_witness :
  exists ex,
    (@Compile unit stub_fail (SetCode "x" clean_unit) env0).1.1 = Thrown ex /\
    what ex = "Compile DX shader failed.syntax error"%string.
Proof.
  destruct (@Compile_throws_on_failure unit stub_fail
              (SetCode "x" clean_unit) env0
              {| d3d_hr := E_FAIL; ppCode := None;
                 ppErrorMsgs := Some blob_diag |} tt)
    as (ex & Hex & Hwhat & _);
    [reflexivity|reflexivity|reflexivity|].
  exists ex. split; [exact Hex|exact Hwhat].
Defined.

Lemma static_shader_compiles_once_witness :
  (@Compile unit stub_ok
     (MakeStaticVariableWrapper (shader_setup "code" "VS" "vs" "vs_4_1" 3%N))
     env0).1.1
  = Returned (Some blob_B).
Proof.
  apply (proj2 (@static_shader_compiles_once unit stub_ok "code" "VS" "vs"
                  "vs_4_1" 3%N env0)
           {| d3d_hr := S_OK; ppCode := Some blob_B; ppErrorMsgs := None |} tt);
    reflexivity.
Defined.
